(** * extractcode command line: the extraction event stream consumer

    A shallow embedding of [src/extractcode/cli.py]: the relative path
    computation ([get_relative_path]), the live renderer ([extract_event]),
    the end-of-run summary ([display_extract_summary]) and the event loop of
    the [extractcode] command with its exit status.

    Python values are modelled as the code has them:
    - a path is either a byte string or a text (unicode) string, and the
      code branches on [isinstance(source, compat.unicode)];
    - [has_extract_errors] starts as [False] and is updated with
      [has_extract_errors or xev.errors], so it holds either a boolean or a
      list; only its truth value is read, by [1 if has_extract_errors else 0];
    - [unique_extract_events_with_errors] is a set of [repr] strings. *)

From Stdlib Require Import Ascii String ZArith.
From stdpp Require Import base strings list gmap.

Local Open Scope string_scope.
Local Open Scope nat_scope.
Local Open Scope list_scope.
Local Open Scope stdpp_scope.

(** ** Python values *)

(** A Python path string: [bytes] or text ([compat.unicode]). *)
Inductive pystr : Type :=
  | PyBytes (b : string)
  | PyUnicode (u : string).

Global Instance pystr_eq_dec : EqDecision pystr.
Proof. solve_decision. Defined.

(** [isinstance(s, compat.unicode)] *)
Definition is_unicode (s : pystr) : bool :=
  match s with
  | PyUnicode _ => true
  | PyBytes _ => false
  end.

(** Truth value of a Python string and of a Python list. *)
Definition str_truthy (s : string) : bool :=
  match s with
  | EmptyString => false
  | String _ _ => true
  end.

Definition list_truthy {A : Type} (l : list A) : bool :=
  match l with
  | [] => false
  | _ :: _ => true
  end.

(** The idiom [a and x or ''] on strings. *)
Definition py_and_or (a x : string) : string :=
  if str_truthy a then (if str_truthy x then x else "") else "".

(** The value held by [has_extract_errors]: the initial [False], or the
    [errors] list that [has_extract_errors or xev.errors] evaluated to. *)
Inductive pyflag : Type :=
  | FlagBool (b : bool)
  | FlagList (l : list string).

Definition flag_truthy (f : pyflag) : bool :=
  match f with
  | FlagBool b => b
  | FlagList l => list_truthy l
  end.

(** [f or errs]: the left operand when it is true, else the right one. *)
Definition py_or (f : pyflag) (errs : list string) : pyflag :=
  if flag_truthy f then f else FlagList errs.

(** ** String primitives *)

(** The slice [s[n:]] for [0 <= n]; past the end it is the empty string. *)
Fixpoint slice_from (n : nat) (s : string) : string :=
  match n, s with
  | O, _ => s
  | S n', String _ s' => slice_from n' s'
  | S _, EmptyString => EmptyString
  end.

(** [c in chars] for a character and a string of characters. *)
Fixpoint char_in (c : ascii) (chars : string) : bool :=
  match chars with
  | EmptyString => false
  | String d chars' => if Ascii.eqb c d then true else char_in c chars'
  end.

(** [s.lstrip(chars)]: drop leading characters while they are in [chars]. *)
Fixpoint lstrip (chars : string) (s : string) : string :=
  match s with
  | EmptyString => EmptyString
  | String c s' => if char_in c chars then lstrip chars s' else s
  end.

(** [k] copies of the separator, to describe what [lstrip] removed. *)
Fixpoint slashes (k : nat) : string :=
  match k with
  | O => EmptyString
  | S k' => String "/" (slashes k')
  end.

(** The string begins with the posix separator. *)
Definition begins_with_sep (s : string) : Prop :=
  ∃ rest, s = String "/" rest.

(** ** Extraction events *)

(** Modelled from the spec: the event type [ExtractEvent] is declared in
    [extractcode], outside this file; the data model gives it the fields
    read here: [source], [done], [warnings] and [errors]. *)
Record ExtractEvent : Type := mkExtractEvent {
  source : pystr;
  done : bool;
  warnings : list string;
  errors : list string;
}.

Global Instance ExtractEvent_eq_dec : EqDecision ExtractEvent.
Proof. solve_decision. Defined.

(** ** Output *)

Inductive color : Type := green | yellow | red.

Global Instance color_eq_dec : EqDecision color.
Proof. solve_decision. Defined.

(** One call of [echo_stderr(text, fg=...)]. *)
Record echo_line : Type := mkEcho {
  text : string;
  fg : color;
}.

Global Instance echo_line_eq_dec : EqDecision echo_line.
Proof. solve_decision. Defined.

(** ** Posix file names and a plain [repr]

    Used to run the model on concrete paths. *)

(** Modelled from the spec: [fileutils.file_name] is not in this file; the
    spec calls its result the file's base name, with no path prefix: the
    text after the last separator. *)
Fixpoint posix_file_name (s : string) : string :=
  match s with
  | EmptyString => EmptyString
  | String c s' =>
      if Ascii.eqb c "/" then posix_file_name s'
      else if char_in "/" s' then posix_file_name s'
      else s
  end.

(** Rendering of a list of strings as Python prints it, for strings that
    need no escape. *)
Fixpoint repr_items (l : list string) : string :=
  match l with
  | [] => ""
  | [x] => "'" +:+ x +:+ "'"
  | x :: l' => "'" +:+ x +:+ "', " +:+ repr_items l'
  end.

Definition repr_list (l : list string) : string := "[" +:+ repr_items l +:+ "]".

Definition repr_str (s : pystr) : string :=
  match s with
  | PyBytes b => "b'" +:+ b +:+ "'"
  | PyUnicode u => "'" +:+ u +:+ "'"
  end.

Definition repr_bool (b : bool) : string := if b then "True" else "False".

(** The [repr] of the named tuple, field by field. *)
Definition repr_plain (xev : ExtractEvent) : string :=
  "ExtractEvent(source=" +:+ repr_str (source xev)
  +:+ ", done=" +:+ repr_bool (done xev)
  +:+ ", warnings=" +:+ repr_list (warnings xev)
  +:+ ", errors=" +:+ repr_list (errors xev) +:+ ")".

(** ** Collaborators

    The functions of [commoncode] and of the Python runtime that the
    command calls and that are not in this file. *)
Class Collaborators : Type := {
  (** [toascii(source, translit=True).decode('utf-8', 'replace')] *)
  toascii_translit : string → string;
  (** the decoding of a byte path done by [fileutils.fsdecode] *)
  fs_decode_bytes : string → string;
  (** the separator rewriting of [fileutils.as_posixpath] *)
  posix_separators : string → string;
  (** [fileutils.file_name] on a text path *)
  file_name : string → string;
  (** [repr] of an event *)
  repr : ExtractEvent → string;
}.

(** Posix paths in ASCII: nothing to decode, to transliterate or to
    normalize. *)
Definition posix_runtime : Collaborators := {|
  toascii_translit := id;
  fs_decode_bytes := id;
  posix_separators := id;
  file_name := posix_file_name;
  repr := repr_plain;
|}.

(** ** Sample events

    A run over the tree [/a/b]: one archive reported while in progress,
    then with an error, and once more with an extra warning; a byte path
    with a warning only. *)
Definition ev_progress : ExtractEvent :=
  mkExtractEvent (PyUnicode "/a/b/c/d.zip") false [] ["boom"].

Definition ev_error : ExtractEvent :=
  mkExtractEvent (PyUnicode "/a/b/c/d.zip") true [] ["boom"].

Definition ev_error_odd : ExtractEvent :=
  mkExtractEvent (PyUnicode "/a/b/c/d.zip") true ["odd"] ["boom"].

Definition ev_error_bytes : ExtractEvent :=
  mkExtractEvent (PyBytes "/a/b/c/d.zip") true [] ["boom"].

Definition ev_warning : ExtractEvent :=
  mkExtractEvent (PyBytes "/a/b/e.tar") true ["w"] [].

Definition sample_stream : list ExtractEvent :=
  [ev_progress; ev_error; ev_warning; ev_error; ev_error_odd; ev_warning].

(** ** The notice texts and the option callbacks

    The module reads its [NOTICE] file when it is loaded and cuts it at two
    delimiters; [--about] prints the pieces, [--version] the version. *)

(** The newline character, as a string. *)
Definition nl : string := String "010"%char EmptyString.

Definition __version__ : string := "2020.09.21".

Definition info_text : string :=
  nl
  +:+ "ExtractCode is a mostly universal archive and compressed files extractor, with "
  +:+ nl +:+ "a particular focus on code archives."
  +:+ nl
  +:+ "Visit https://github.com/nexB/scancode-toolkit/ for support and download."
  +:+ nl +:+ nl.

(** [sep] occurs in [s]. *)
Definition occurs (sep s : string) : Prop :=
  ∃ before after, s = before +:+ sep +:+ after.

(** The first occurrence of [sep] in [s]: what is before it and what is
    after it. *)
Fixpoint find_sep (sep s : string) {struct s} : option (string * string) :=
  if String.prefix sep s then Some ("", slice_from (String.length sep) s)
  else
    match s with
    | EmptyString => None
    | String c s' =>
        match find_sep sep s' with
        | Some (before, after) => Some (String c before, after)
        | None => None
        end
    end.

(** [s.split(sep, 1)] for a separator that is not empty: two pieces when
    [sep] occurs, else the string alone. *)
Definition py_split1 (sep s : string) : list string :=
  match find_sep sep s with
  | Some (before, after) => [before; after]
  | None => [s]
  end.

(** [s.replace('  ', '')]: from left to right, every pair of spaces is
    removed. *)
Fixpoint replace_two_spaces (s : string) : string :=
  match s with
  | EmptyString => EmptyString
  | String c rest =>
      match rest with
      | String d rest' =>
          if Ascii.eqb c " " && Ascii.eqb d " " then replace_two_spaces rest'
          else String c (replace_two_spaces rest)
      | EmptyString => String c EmptyString
      end
  end.

(** The module variables computed from the [NOTICE] file. *)
Record NoticeTexts : Type := mkNoticeTexts {
  notice_text : string;
  acknowledgment_text : string;
  extra_notice_text : string;
  notice : string;
}.

(** The module-level cutting of the contents of [NOTICE].  [None] is the
    [ValueError] of an unpacking [[a, b] = ...] that does not get two
    pieces.  [strip] is [str.strip()]. *)
Definition split_notice
    (strip : string → string) (contents : string) : option NoticeTexts :=
  let notice_text := contents in
  let delimiter := nl +:+ nl +:+ nl in
  match py_split1 delimiter notice_text with
  | [notice_text; extra_notice_text] =>
      let extra_notice_text := delimiter +:+ extra_notice_text in
      let delimiter := nl +:+ nl +:+ "  " in
      match py_split1 delimiter notice_text with
      | [notice_text; acknowledgment_text] =>
          let acknowledgment_text := delimiter +:+ acknowledgment_text in
          let notice := replace_two_spaces (strip acknowledgment_text) in
          Some (mkNoticeTexts notice_text acknowledgment_text
                  extra_notice_text notice)
      | _ => None
      end
  | _ => None
  end.

(** What an eager option callback does: nothing, or it echoes a text and
    exits. *)
Inductive callback_result : Type :=
  | Returns
  | EchoesAndExits (out : string).

(** [print_about(ctx, param, value)] *)
Definition print_about
    (texts : NoticeTexts) (resilient_parsing value : bool) : callback_result :=
  if negb value || resilient_parsing then Returns
  else
    EchoesAndExits
      (info_text +:+ notice_text texts +:+ acknowledgment_text texts
       +:+ extra_notice_text texts).

(** [print_version(ctx, param, value)] *)
Definition print_version (resilient_parsing value : bool) : callback_result :=
  if negb value || resilient_parsing then Returns
  else EchoesAndExits ("ExtractCode version " +:+ __version__).

(** A small [NOTICE] file: a title, the acknowledgment after a blank line
    and two spaces, and the rest after two blank lines. *)
Definition sample_notice : string :=
  "Notice" +:+ nl +:+ nl +:+ "  Generated  with care" +:+ nl +:+ nl +:+ nl
  +:+ "More".

Definition sample_notice_texts : NoticeTexts :=
  mkNoticeTexts "Notice"
    (nl +:+ nl +:+ "  Generated  with care")
    (nl +:+ nl +:+ nl +:+ "More")
    (nl +:+ nl +:+ "Generatedwith care").

(** ** The command *)

Section ExtractCode.

Context {rt : Collaborators}.

(** Modelled from the spec: [fileutils.fsdecode] is not in this file; the
    resolver operates on path strings, so a text path is taken as it is,
    and the decoding of a byte path is left to [fs_decode_bytes]. *)
Definition fsdecode (path : pystr) : string :=
  match path with
  | PyUnicode u => u
  | PyBytes b => fs_decode_bytes b
  end.

(** Modelled from the spec: [fileutils.as_posixpath] is not in this file; it
    normalizes the separators of a path and keeps the type of the string. *)
Definition as_posixpath (path : pystr) : pystr :=
  match path with
  | PyUnicode u => PyUnicode (posix_separators u)
  | PyBytes b => PyBytes (posix_separators b)
  end.

(** [get_relative_path(path, len_base_path, base_is_dir)] *)
Definition get_relative_path
    (path : pystr) (len_base_path : nat) (base_is_dir : bool) : string :=
  let path := fsdecode path in
  let rel_path :=
    if base_is_dir then slice_from len_base_path path
    else file_name path in
  lstrip "/" rel_path.

(** [if not isinstance(source, compat.unicode): source = toascii(...)]:
    a byte path is transliterated to text, a text path is kept. *)
Definition as_text (source : pystr) : string :=
  match source with
  | PyUnicode u => u
  | PyBytes b => toascii_translit b
  end.

(** [extract_event(item)], the function handed to the progress display;
    [quiet], [verbose], [len_base_path] and [base_is_dir] are the variables
    it closes over.  [file_name] and [get_relative_path] return text for a
    text path, so the second [isinstance] test of the source changes
    nothing. *)
Definition extract_event
    (quiet verbose : bool) (len_base_path : nat) (base_is_dir : bool)
    (item : option ExtractEvent) : string :=
  if quiet then ""
  else
    match item with
    | None => ""
    | Some item =>
        let source := as_text (source item) in
        if verbose then
          if done item then ""
          else
            let line :=
              py_and_or source
                (get_relative_path (PyUnicode source) len_base_path base_is_dir) in
            "Extracting: " +:+ line
        else
          let line := py_and_or source (file_name source) in
          "Extracting: " +:+ line
    end.

(** The local variables of [display_extract_summary] and what it has
    echoed so far. *)
Record SummaryAcc : Type := mkSummaryAcc {
  has_warnings : bool;
  has_errors : bool;
  echoed : list echo_line;
}.

(** The [source] shown for an event of the summary: the posix path, and
    only when that is not text its transliteration made relative. *)
Definition summary_source
    (len_base_path : nat) (base_is_dir : bool) (xev : ExtractEvent) : string :=
  match as_posixpath (source xev) with
  | PyUnicode u => u
  | PyBytes b =>
      let source := toascii_translit b in
      get_relative_path (PyUnicode source) len_base_path base_is_dir
  end.

Definition error_line (source e : string) : echo_line :=
  mkEcho ("ERROR extracting: " +:+ source +:+ ": " +:+ e) red.

Definition warning_line (source warn : string) : echo_line :=
  mkEcho ("WARNING extracting: " +:+ source +:+ ": " +:+ warn) yellow.

(** One turn of the loop of [display_extract_summary]. *)
Definition summary_event
    (len_base_path : nat) (base_is_dir : bool)
    (acc : SummaryAcc) (xev : ExtractEvent) : SummaryAcc :=
  let source := summary_source len_base_path base_is_dir xev in
  {| has_errors := has_errors acc || list_truthy (errors xev);
     has_warnings := has_warnings acc || list_truthy (warnings xev);
     echoed := echoed acc
               ++ map (error_line source) (errors xev)
               ++ map (warning_line source) (warnings xev) |}.

Definition summary_loop
    (len_base_path : nat) (base_is_dir : bool)
    (extract_result_with_errors : list ExtractEvent) : SummaryAcc :=
  foldl (summary_event len_base_path base_is_dir)
        (mkSummaryAcc false false []) extract_result_with_errors.

Definition summary_color (acc : SummaryAcc) : color :=
  let c := green in
  let c := if has_warnings acc then yellow else c in
  if has_errors acc then red else c.

(** [display_extract_summary()]: the lines it echoes, in order. *)
Definition display_extract_summary
    (len_base_path : nat) (base_is_dir : bool)
    (extract_result_with_errors : list ExtractEvent) : list echo_line :=
  let acc := summary_loop len_base_path base_is_dir extract_result_with_errors in
  echoed acc ++ [mkEcho "Extracting done." (summary_color acc)].

(** The three accumulators of [extractcode]. *)
Record AggState : Type := mkAgg {
  extract_result_with_errors : list ExtractEvent;
  unique_extract_events_with_errors : gset string;
  has_extract_errors : pyflag;
}.

Definition initial_state : AggState := mkAgg [] ∅ (FlagBool false).

(** [xev.done and (xev.warnings or xev.errors)] *)
Definition is_failure (xev : ExtractEvent) : bool :=
  done xev && (list_truthy (warnings xev) || list_truthy (errors xev)).

(** The body of the loop over [extraction_events] (not quiet). *)
Definition observe (st : AggState) (xev : ExtractEvent) : AggState :=
  if is_failure xev then
    let flag := py_or (has_extract_errors st) (errors xev) in
    if decide (repr xev ∉ unique_extract_events_with_errors st) then
      mkAgg (extract_result_with_errors st ++ [xev])
            ({[repr xev]} ∪ unique_extract_events_with_errors st) flag
    else
      mkAgg (extract_result_with_errors st)
            (unique_extract_events_with_errors st) flag
  else st.

(** The body of the loop over [extractibles] (quiet). *)
Definition observe_quiet (st : AggState) (xev : ExtractEvent) : AggState :=
  if is_failure xev then
    mkAgg (extract_result_with_errors st)
          (unique_extract_events_with_errors st)
          (py_or (has_extract_errors st) (errors xev))
  else st.

(** What a run leaves behind: the accumulators, the live progress lines,
    the lines echoed by this file and the exit status. *)
Record RunResult : Type := mkRun {
  final_state : AggState;
  live : list string;
  stderr : list echo_line;
  rc : Z;
}.

Definition exit_status (st : AggState) : Z :=
  if flag_truthy (has_extract_errors st) then 1%Z else 0%Z.

(** Modelled from the spec: [cliutils.progressmanager] is not in this file;
    the orchestrator renders one live line per event, in arrival order,
    with [extract_event]. *)
Definition progress_lines
    (quiet verbose : bool) (len_base_path : nat) (base_is_dir : bool)
    (extractibles : list ExtractEvent) : list string :=
  map (λ xev, extract_event quiet verbose len_base_path base_is_dir (Some xev))
      extractibles.

(** [extractcode]: from the event stream of [extract_archives] to the exit
    status.  [len_base_path] and [base_is_dir] are computed from the input
    path before the loop. *)
Definition extractcode
    (quiet verbose : bool) (len_base_path : nat) (base_is_dir : bool)
    (extractibles : list ExtractEvent) : RunResult :=
  if negb quiet then
    let st := foldl observe initial_state extractibles in
    {| final_state := st;
       live := progress_lines quiet verbose len_base_path base_is_dir
                 extractibles;
       stderr := mkEcho "Extracting archives..." green
                 :: display_extract_summary len_base_path base_is_dir
                      (extract_result_with_errors st);
       rc := exit_status st |}
  else
    let st := foldl observe_quiet initial_state extractibles in
    {| final_state := st; live := []; stderr := []; rc := exit_status st |}.

(** *** The summary as the specification words it *)

(** The lines of one event: its errors, then its warnings. *)
Definition event_lines
    (len_base_path : nat) (base_is_dir : bool) (xev : ExtractEvent)
    : list echo_line :=
  let source := summary_source len_base_path base_is_dir xev in
  map (error_line source) (errors xev)
  ++ map (warning_line source) (warnings xev).

Inductive tier : Type := clean | warning | error.

(** The severity tier in the words of the specification: error if any
    failure has errors, else warning if any has warnings, else clean. *)
Definition severity_tier (failures : list ExtractEvent) : tier :=
  if existsb (λ xev, list_truthy (errors xev)) failures then error
  else if existsb (λ xev, list_truthy (warnings xev)) failures then warning
  else clean.

Definition tier_color (t : tier) : color :=
  match t with
  | clean => green
  | warning => yellow
  | error => red
  end.

(** A terminal event that carries at least one error. *)
Definition error_bearing (xev : ExtractEvent) : bool :=
  done xev && list_truthy (errors xev).

(** What the loop over [extraction_events] maintains, after the events
    [arrived] and in the state [st]: the set holds the signatures of the
    listed events, no event is listed twice, the listed events are the
    failures that arrived, and they are listed in the order of their first
    arrival. *)
Definition dedup_invariant
    (arrived : list ExtractEvent) (st : AggState) : Prop :=
  let failures := extract_result_with_errors st in
  (∀ sig, sig ∈ unique_extract_events_with_errors st
          ↔ ∃ xev, xev ∈ failures ∧ repr xev = sig)
  ∧ NoDup failures
  ∧ (∀ xev, xev ∈ failures ↔ xev ∈ arrived ∧ is_failure xev = true)
  ∧ (∀ (i j : nat) a b,
       i < j → failures !! i = Some a → failures !! j = Some b →
       ∃ k : nat, arrived !! k = Some a
            ∧ ∀ k' : nat, k' ≤ k → arrived !! k' ≠ Some b).

(** *** What the loops keep *)

(** The set is the set of the signatures of the listed events, and no two
    listed events have the same signature. *)
Definition signatures_invariant (st : AggState) : Prop :=
  unique_extract_events_with_errors st
  = list_to_set (repr <$> extract_result_with_errors st)
  ∧ NoDup (repr <$> extract_result_with_errors st).

(** An event that the loop over [extraction_events] has taken in: seeing
    it again would find its signature in the set and leave the flag as it
    is. *)
Definition absorbed (st : AggState) (xev : ExtractEvent) : Prop :=
  is_failure xev = true →
  repr xev ∈ unique_extract_events_with_errors st
  ∧ py_or (has_extract_errors st) (errors xev) = has_extract_errors st.

(** The same event with other warnings. *)
Definition set_warnings (ws : list string) (xev : ExtractEvent) : ExtractEvent :=
  mkExtractEvent (source xev) (done xev) ws (errors xev).

(** The number of messages an event carries. *)
Definition message_count (xev : ExtractEvent) : nat :=
  length (errors xev) + length (warnings xev).

(** *** Facts about the string primitives *)

Lemma slice_from_drop (n : nat) (s : string) :
  slice_from n s
  = string_of_list_ascii (drop n (list_ascii_of_string s)).
Proof.
  revert s. induction n as [|n IH]; intros s.
  - simpl. rewrite drop_0. symmetry. apply string_of_list_ascii_of_string.
  - destruct s as [|c s]; simpl; [reflexivity|]. apply IH.
Qed.

Lemma char_in_slash (c : ascii) :
  char_in c "/" = true ↔ c = "/"%char.
Proof.
  simpl. destruct (Ascii.eqb c "/") eqn:E.
  - apply Ascii.eqb_eq in E. tauto.
  - apply Ascii.eqb_neq in E. split; [discriminate | tauto].
Qed.

Lemma lstrip_slash_split (s : string) :
  ∃ k : nat, s = slashes k +:+ lstrip "/" s.
Proof.
  induction s as [|c s [k IH]].
  - exists 0. reflexivity.
  - cbn [lstrip]. destruct (char_in c "/") eqn:E.
    + apply char_in_slash in E. subst c.
      exists (S k). rewrite IH at 1. reflexivity.
    + exists 0. reflexivity.
Qed.

Lemma lstrip_slash_no_sep (s : string) :
  ¬ begins_with_sep (lstrip "/" s).
Proof.
  induction s as [|c s IH]; intros [rest H].
  - discriminate.
  - cbn [lstrip] in H. destruct (char_in c "/") eqn:E.
    + apply IH. exists rest. exact H.
    + injection H as -> _. discriminate.
Qed.

(** C7. For every path, base length and base kind, [get_relative_path]
    returns the path without its first [len_base_path] characters when
    the base is a directory and the file name of the path when the base
    is a single file; in both cases every leading ['/'] is stripped, so
    the result never begins with a separator.  For the base [/a/b]
    (a directory, of length 4) and the source [/a/b/c/d.zip] the result
    is [c/d.zip]. *)
Theorem get_relative_path_spec (path : pystr) (len_base_path : nat) :
  (∃ k : nat, string_of_list_ascii
          (drop len_base_path (list_ascii_of_string (fsdecode path)))
        = slashes k +:+ get_relative_path path len_base_path true)
  ∧ (∃ k : nat, file_name (fsdecode path)
          = slashes k +:+ get_relative_path path len_base_path false)
  ∧ (∀ base_is_dir,
       ¬ begins_with_sep (get_relative_path path len_base_path base_is_dir))
  ∧ get_relative_path (PyUnicode "/a/b/c/d.zip") 4 true = "c/d.zip".
Proof.
  unfold get_relative_path. repeat split.
  - rewrite <- slice_from_drop. apply lstrip_slash_split.
  - apply lstrip_slash_split.
  - intros b. apply lstrip_slash_no_sep.
Qed.

(** *** The live renderer *)

Lemma py_and_or_id (a x : string) :
  (a = "" → x = "") → py_and_or a x = x.
Proof.
  unfold py_and_or. destruct a as [|c a]; simpl.
  - intros H. symmetry. by apply H.
  - intros _. by destruct x.
Qed.

Lemma get_relative_path_empty (n : nat) (d : bool) :
  file_name "" = "" → get_relative_path (PyUnicode "") n d = "".
Proof.
  intros H. unfold get_relative_path. simpl. rewrite H.
  destruct d; [by destruct n | done].
Qed.

(** C8. The live renderer returns the empty string when [quiet] is set or
    when there is no event; in verbose mode the empty string for a
    terminal event and otherwise ["Extracting: "] followed by the relative
    path of the source; in normal mode ["Extracting: "] followed by the
    file name of the source, for every event, terminal or not.  The file
    name of the empty path is taken to be empty, as a base name is. *)
Theorem extract_event_spec
    (len_base_path : nat) (base_is_dir : bool) (item : ExtractEvent) :
  file_name "" = "" →
  (∀ verbose it,
     extract_event true verbose len_base_path base_is_dir it = "")
  ∧ (∀ quiet verbose,
       extract_event quiet verbose len_base_path base_is_dir None = "")
  ∧ (done item = true →
     extract_event false true len_base_path base_is_dir (Some item) = "")
  ∧ (done item = false →
     extract_event false true len_base_path base_is_dir (Some item)
     = "Extracting: "
       +:+ get_relative_path (PyUnicode (as_text (source item)))
             len_base_path base_is_dir)
  ∧ extract_event false false len_base_path base_is_dir (Some item)
    = "Extracting: " +:+ file_name (as_text (source item)).
Proof.
  intros Hnil. unfold extract_event. repeat split.
  - intros quiet verbose. by destruct quiet.
  - by intros ->.
  - intros ->. rewrite py_and_or_id; [done|].
    intros ->. by apply get_relative_path_empty.
  - rewrite py_and_or_id; [done|]. by intros ->.
Qed.

(** *** The summary *)

Lemma summary_source_bytes (n : nat) (d : bool) (xev : ExtractEvent) (b : string) :
  source xev = PyBytes b →
  summary_source n d xev
  = get_relative_path
      (PyUnicode (toascii_translit (posix_separators b))) n d.
Proof. intros H. unfold summary_source. by rewrite H. Qed.

Lemma summary_source_text (n : nat) (d : bool) (xev : ExtractEvent) (u : string) :
  source xev = PyUnicode u →
  summary_source n d xev = posix_separators u.
Proof. intros H. unfold summary_source. by rewrite H. Qed.

Lemma summary_loop_from
    (n : nat) (d : bool) (l : list ExtractEvent) (acc : SummaryAcc) :
  foldl (summary_event n d) acc l
  = {| has_warnings :=
         has_warnings acc || existsb (λ xev, list_truthy (warnings xev)) l;
       has_errors :=
         has_errors acc || existsb (λ xev, list_truthy (errors xev)) l;
       echoed := echoed acc ++ concat (map (event_lines n d) l) |}.
Proof.
  revert acc. induction l as [|xev l IH]; intros acc; simpl.
  - rewrite !orb_false_r, app_nil_r. by destruct acc.
  - rewrite IH. unfold summary_event, event_lines. simpl.
    rewrite !orb_assoc, <- !app_assoc. done.
Qed.

Lemma summary_loop_eq (n : nat) (d : bool) (l : list ExtractEvent) :
  summary_loop n d l
  = {| has_warnings := existsb (λ xev, list_truthy (warnings xev)) l;
       has_errors := existsb (λ xev, list_truthy (errors xev)) l;
       echoed := concat (map (event_lines n d) l) |}.
Proof. unfold summary_loop. by rewrite summary_loop_from. Qed.

Lemma event_lines_not_status (n : nat) (d : bool) (xev : ExtractEvent) :
  Forall (λ ln, text ln ≠ "Extracting done.") (event_lines n d xev).
Proof.
  unfold event_lines. apply Forall_app. split.
  all: apply Forall_forall; intros ln Hin.
  all: apply list_elem_of_fmap in Hin as [m [-> _]]; simpl; discriminate.
Qed.

(** C9. The summary ends with exactly one status line, with the fixed text
    ["Extracting done."]; its colour is the one of the severity tier of the
    listed events: red when an event has errors, else yellow when an event
    has warnings, else green.  No line before it has that text. *)
Theorem display_extract_summary_status
    (len_base_path : nat) (base_is_dir : bool) (failures : list ExtractEvent) :
  ∃ body,
    display_extract_summary len_base_path base_is_dir failures
    = (body
       ++ [mkEcho "Extracting done." (tier_color (severity_tier failures))])%list
    ∧ body = concat (map (event_lines len_base_path base_is_dir) failures)
    ∧ Forall (λ ln, text ln ≠ "Extracting done.") body.
Proof.
  exists (concat (map (event_lines len_base_path base_is_dir) failures)).
  split; [|split; [done|]].
  - unfold display_extract_summary. rewrite summary_loop_eq.
    unfold summary_color, severity_tier. simpl.
    destruct (existsb (λ xev, list_truthy (errors xev)) failures),
      (existsb (λ xev, list_truthy (warnings xev)) failures); done.
  - apply Forall_concat, Forall_fmap, Forall_forall.
    intros xev _. apply event_lines_not_status.
Qed.

(** *** The event loop: the error flag and the exit status *)

Lemma py_or_truthy (f : pyflag) (errs : list string) :
  flag_truthy (py_or f errs) = flag_truthy f || list_truthy errs.
Proof.
  unfold py_or. destruct (flag_truthy f) eqn:E; simpl; [|done].
  by rewrite E.
Qed.

Lemma is_failure_errors (xev : ExtractEvent) :
  is_failure xev && list_truthy (errors xev) = error_bearing xev.
Proof.
  unfold is_failure, error_bearing.
  by destruct (done xev), (warnings xev), (errors xev).
Qed.

Lemma observe_flag (st : AggState) (xev : ExtractEvent) :
  flag_truthy (has_extract_errors (observe st xev))
  = flag_truthy (has_extract_errors st) || error_bearing xev.
Proof.
  rewrite <- is_failure_errors. unfold observe.
  destruct (is_failure xev); simpl.
  - case_decide; simpl; apply py_or_truthy.
  - by rewrite orb_false_r.
Qed.

Lemma observe_quiet_flag (st : AggState) (xev : ExtractEvent) :
  flag_truthy (has_extract_errors (observe_quiet st xev))
  = flag_truthy (has_extract_errors st) || error_bearing xev.
Proof.
  rewrite <- is_failure_errors. unfold observe_quiet.
  destruct (is_failure xev); simpl.
  - apply py_or_truthy.
  - by rewrite orb_false_r.
Qed.

Lemma loop_flag
    (step : AggState → ExtractEvent → AggState)
    (Hstep : ∀ st xev,
       flag_truthy (has_extract_errors (step st xev))
       = flag_truthy (has_extract_errors st) || error_bearing xev)
    (evs : list ExtractEvent) (st : AggState) :
  flag_truthy (has_extract_errors (foldl step st evs))
  = flag_truthy (has_extract_errors st) || existsb error_bearing evs.
Proof.
  revert st. induction evs as [|xev evs IH]; intros st; simpl.
  - by rewrite orb_false_r.
  - by rewrite IH, Hstep, orb_assoc.
Qed.

Lemma extractcode_flag
    (quiet verbose : bool) (n : nat) (d : bool) (evs : list ExtractEvent) :
  flag_truthy (has_extract_errors
                 (final_state (extractcode quiet verbose n d evs)))
  = existsb error_bearing evs.
Proof.
  unfold extractcode. destruct quiet; simpl.
  - by rewrite (loop_flag observe_quiet observe_quiet_flag).
  - by rewrite (loop_flag observe observe_flag).
Qed.

Lemma extractcode_rc
    (quiet verbose : bool) (n : nat) (d : bool) (evs : list ExtractEvent) :
  rc (extractcode quiet verbose n d evs)
  = exit_status (final_state (extractcode quiet verbose n d evs)).
Proof. unfold extractcode. by destruct quiet. Qed.

(** C2. For every finite event stream the exit status is 1 when some
    terminal event ([done] true) has a non-empty [errors] list, and 0
    otherwise, whatever warnings the events carry. *)
Theorem exit_status_spec
    (quiet verbose : bool) (len_base_path : nat) (base_is_dir : bool)
    (extractibles : list ExtractEvent) :
  rc (extractcode quiet verbose len_base_path base_is_dir extractibles)
  = if existsb error_bearing extractibles then 1%Z else 0%Z.
Proof.
  rewrite extractcode_rc. unfold exit_status.
  by rewrite extractcode_flag.
Qed.

(** C3. Over the same event stream, the run with [quiet] set and the run
    without it compute the same exit status. *)
Theorem quiet_invariance
    (verbose : bool) (len_base_path : nat) (base_is_dir : bool)
    (extractibles : list ExtractEvent) :
  rc (extractcode true verbose len_base_path base_is_dir extractibles)
  = rc (extractcode false verbose len_base_path base_is_dir extractibles).
Proof.
  rewrite !extractcode_rc. unfold exit_status.
  by rewrite !extractcode_flag.
Qed.

(** *** Events that are not terminal *)

Lemma observe_not_done (st : AggState) (xev : ExtractEvent) :
  done xev = false → observe st xev = st.
Proof. intros H. unfold observe, is_failure. by rewrite H. Qed.

Lemma observe_quiet_not_done (st : AggState) (xev : ExtractEvent) :
  done xev = false → observe_quiet st xev = st.
Proof. intros H. unfold observe_quiet, is_failure. by rewrite H. Qed.

Lemma observe_failures_are_failures (evs : list ExtractEvent) (st : AggState) :
  Forall (λ xev, is_failure xev = true) (extract_result_with_errors st) →
  Forall (λ xev, is_failure xev = true)
         (extract_result_with_errors (foldl observe st evs)).
Proof.
  revert st. induction evs as [|xev evs IH]; intros st Hst; simpl; [done|].
  apply IH. unfold observe. destruct (is_failure xev) eqn:E; [|done].
  case_decide; simpl; [|done].
  apply Forall_app. split; [done|]. by apply Forall_singleton.
Qed.

Lemma observe_quiet_failures (evs : list ExtractEvent) (st : AggState) :
  extract_result_with_errors (foldl observe_quiet st evs)
  = extract_result_with_errors st
  ∧ unique_extract_events_with_errors (foldl observe_quiet st evs)
    = unique_extract_events_with_errors st.
Proof.
  revert st. induction evs as [|xev evs IH]; intros st; simpl; [done|].
  destruct (IH (observe_quiet st xev)) as [-> ->].
  unfold observe_quiet. by destruct (is_failure xev).
Qed.

(** C5. An event with [done] false, whatever its errors, changes none of
    the accumulators, in the quiet loop and in the other one: a run over a
    stream and the run over the stream without that event end in the same
    state, and the event is not in the failures list at the end. *)
Theorem non_terminal_event_ignored
    (quiet verbose : bool) (len_base_path : nat) (base_is_dir : bool)
    (st : AggState) (xev : ExtractEvent) (before after : list ExtractEvent) :
  done xev = false →
  observe st xev = st
  ∧ observe_quiet st xev = st
  ∧ final_state (extractcode quiet verbose len_base_path base_is_dir
                   (before ++ xev :: after))
    = final_state (extractcode quiet verbose len_base_path base_is_dir
                     (before ++ after))
  ∧ xev ∉ extract_result_with_errors
            (final_state (extractcode quiet verbose len_base_path base_is_dir
                            (before ++ xev :: after))).
Proof.
  intros Hdone. split; [by apply observe_not_done|].
  split; [by apply observe_quiet_not_done|]. split.
  - unfold extractcode. destruct quiet; simpl; rewrite !foldl_app; simpl.
    + by rewrite observe_quiet_not_done.
    + by rewrite observe_not_done.
  - intros Hin. unfold extractcode in Hin. destruct quiet; simpl in Hin.
    + destruct (observe_quiet_failures (before ++ xev :: after) initial_state)
        as [Hf _].
      rewrite Hf in Hin. simpl in Hin. by apply elem_of_nil in Hin.
    + pose proof (observe_failures_are_failures (before ++ xev :: after)
                    initial_state) as Hall.
      simpl in Hall. specialize (Hall (Forall_nil_2 _)).
      rewrite Forall_forall in Hall. apply Hall in Hin.
      unfold is_failure in Hin. by rewrite Hdone in Hin.
Qed.

(** C6. Once the error flag is true after a prefix of the stream, it is
    true after every longer prefix: it never goes back to false. *)
Theorem had_errors_monotonic
    (quiet verbose : bool) (len_base_path : nat) (base_is_dir : bool)
    (seen later : list ExtractEvent) :
  flag_truthy
    (has_extract_errors
       (final_state
          (extractcode quiet verbose len_base_path base_is_dir seen))) = true →
  flag_truthy
    (has_extract_errors
       (final_state
          (extractcode quiet verbose len_base_path base_is_dir
             (seen ++ later)))) = true.
Proof.
  rewrite !extractcode_flag, existsb_app. by intros ->.
Qed.

(** C10. With [quiet] set, the failures list and the set of seen
    signatures are empty at the end of the run, nothing is echoed and no
    progress line is shown; the only accumulator that changes is the error
    flag, from which the exit status is computed. *)
Theorem quiet_accumulates_nothing
    (verbose : bool) (len_base_path : nat) (base_is_dir : bool)
    (extractibles : list ExtractEvent) :
  let r := extractcode true verbose len_base_path base_is_dir extractibles in
  extract_result_with_errors (final_state r) = []
  ∧ unique_extract_events_with_errors (final_state r) = ∅
  ∧ stderr r = []
  ∧ live r = []
  ∧ rc r = exit_status (final_state r).
Proof.
  simpl. unfold extractcode. simpl.
  destruct (observe_quiet_failures extractibles initial_state) as [-> ->].
  done.
Qed.

(** *** Deduplication of the failures *)

Lemma dedup_invariant_initial : dedup_invariant [] initial_state.
Proof.
  unfold dedup_invariant, initial_state. simpl.
  split; [|split; [|split]].
  - intros sig. split.
    + intros Hin. by apply elem_of_empty in Hin.
    + intros (xev & Hin & _). by apply elem_of_nil in Hin.
  - apply NoDup_nil_2.
  - intros xev. split.
    + intros Hin. by apply elem_of_nil in Hin.
    + intros [Hin _]. by apply elem_of_nil in Hin.
  - intros i j a b _ Ha. by rewrite lookup_nil in Ha.
Qed.

Lemma first_arrival_extend
    (arrived : list ExtractEvent) (x a b : ExtractEvent) (k : nat) :
  arrived !! k = Some a →
  (∀ k' : nat, k' ≤ k → arrived !! k' ≠ Some b) →
  (arrived ++ [x]) !! k = Some a
  ∧ ∀ k' : nat, k' ≤ k → (arrived ++ [x]) !! k' ≠ Some b.
Proof.
  intros Ha Hb. split; [by apply lookup_app_l_Some|].
  intros k' Hle. rewrite lookup_app_l; [by apply Hb|].
  apply lookup_lt_Some in Ha. lia.
Qed.

Lemma dedup_invariant_step
    (arrived : list ExtractEvent) (x : ExtractEvent) (st : AggState) :
  (∀ a b, a ∈ arrived ++ [x] → b ∈ arrived ++ [x] → repr a = repr b → a = b) →
  dedup_invariant arrived st →
  dedup_invariant (arrived ++ [x]) (observe st x).
Proof.
  intros Hinj (Hsig & Hnd & Hmem & Hord).
  assert (Hx : x ∈ arrived ++ [x]) by (apply elem_of_app; right; by left).
  assert (Hkeep : ∀ a b i j,
    i < j →
    extract_result_with_errors st !! i = Some a →
    extract_result_with_errors st !! j = Some b →
    ∃ k : nat, (arrived ++ [x]) !! k = Some a
         ∧ ∀ k' : nat, k' ≤ k → (arrived ++ [x]) !! k' ≠ Some b).
  { intros a b i j Hij Ha Hb.
    destruct (Hord i j a b Hij Ha Hb) as (k & Hk & Hfirst).
    exists k. by apply first_arrival_extend. }
  unfold observe. destruct (is_failure x) eqn:Hfail.
  - case_decide as Hseen.
    + (* a new signature: the event goes to the end of the list *)
      assert (Hnew : x ∉ extract_result_with_errors st).
      { intros Hin. apply Hseen, Hsig. by exists x. }
      assert (Hfresh : x ∉ arrived).
      { intros Hin. apply Hnew, Hmem. done. }
      unfold dedup_invariant. simpl. split; [|split; [|split]].
      * intros sig. rewrite elem_of_union, elem_of_singleton, Hsig. split.
        -- intros [-> | (y & Hy & <-)].
           ++ exists x. split; [|done]. apply elem_of_app. right. by left.
           ++ exists y. split; [|done]. apply elem_of_app. by left.
        -- intros (y & Hy & <-). apply elem_of_app in Hy as [Hy | Hy].
           ++ right. by exists y.
           ++ apply list_elem_of_singleton in Hy as ->. by left.
      * apply NoDup_app. split; [done|]. split; [|apply NoDup_singleton].
        intros y Hy Hyx. apply list_elem_of_singleton in Hyx as ->. done.
      * intros e. rewrite !elem_of_app, Hmem, list_elem_of_singleton.
        split; [|tauto]. intros [? | ->]; [tauto|]. split; [by right|done].
      * intros i j a b Hij Ha Hb.
        assert (Hi : i < length (extract_result_with_errors st)).
        { apply lookup_lt_Some in Hb. rewrite length_app in Hb.
          simpl in Hb. lia. }
        rewrite lookup_app_l in Ha by done.
        destruct (decide (j < length (extract_result_with_errors st)))
          as [Hj | Hj].
        -- rewrite lookup_app_l in Hb by done. eauto.
        -- rewrite lookup_app_r in Hb by lia.
           apply list_lookup_singleton_Some in Hb as [_ <-].
           assert (Hin : a ∈ arrived).
           { apply Hmem. by eapply list_elem_of_lookup_2. }
           apply list_elem_of_lookup in Hin as [k Hk].
           exists k. split; [by apply lookup_app_l_Some|].
           intros k' Hle. rewrite lookup_app_l.
           ++ intros Hk'. apply Hfresh. by eapply list_elem_of_lookup_2.
           ++ apply lookup_lt_Some in Hk. lia.
    + (* the signature was seen: the event is listed already *)
      apply Hsig in Hseen as (y & Hy & Hrepr).
      assert (y = x) as ->.
      { apply Hinj; [|done|done]. apply elem_of_app. left. by apply Hmem. }
      unfold dedup_invariant. simpl. split; [done|]. split; [done|]. split.
      * intros e. rewrite Hmem, elem_of_app, list_elem_of_singleton.
        split; [tauto|]. intros [[He | ->] Hf]; [done|].
        by apply Hmem.
      * intros i j a b. eauto.
  - (* not a failure: nothing changes *)
    unfold dedup_invariant. split; [done|]. split; [done|]. split.
    + intros e. rewrite Hmem, elem_of_app, list_elem_of_singleton.
      split; [tauto|]. intros [[He | ->] Hf]; [done|]. congruence.
    + intros i j a b. eauto.
Qed.

Lemma dedup_invariant_run (evs : list ExtractEvent) :
  (∀ a b, a ∈ evs → b ∈ evs → repr a = repr b → a = b) →
  dedup_invariant evs (foldl observe initial_state evs).
Proof.
  induction evs as [|x evs IH] using rev_ind; intros Hinj.
  - apply dedup_invariant_initial.
  - rewrite foldl_snoc. apply dedup_invariant_step; [done|].
    apply IH. intros a b Ha Hb. apply Hinj; apply elem_of_app; by left.
Qed.

(** C4. When [repr] tells the events of the stream apart, the failures
    list of a run that is not quiet holds every terminal event with errors
    or warnings that arrived, each exactly once, in the order of first
    arrival: an event listed before another one arrived before any
    occurrence of the other.  Events with the same source and different
    errors or warnings are different events, and each is listed.  The
    summary is rendered from that list. *)
Theorem failures_dedup_first_arrival
    (verbose : bool) (len_base_path : nat) (base_is_dir : bool)
    (extractibles : list ExtractEvent) :
  (∀ a b, a ∈ extractibles → b ∈ extractibles → repr a = repr b → a = b) →
  let r := extractcode false verbose len_base_path base_is_dir extractibles in
  let failures := extract_result_with_errors (final_state r) in
  NoDup failures
  ∧ (∀ xev, xev ∈ failures ↔ xev ∈ extractibles ∧ is_failure xev = true)
  ∧ (∀ (i j : nat) a b,
       i < j → failures !! i = Some a → failures !! j = Some b →
       ∃ k : nat, extractibles !! k = Some a
            ∧ ∀ k' : nat, k' ≤ k → extractibles !! k' ≠ Some b)
  ∧ stderr r
    = mkEcho "Extracting archives..." green
      :: display_extract_summary len_base_path base_is_dir failures.
Proof.
  intros Hinj. simpl.
  destruct (dedup_invariant_run extractibles Hinj) as (_ & Hnd & Hmem & Hord).
  done.
Qed.

(** *** Relative paths under the base *)

Lemma slice_from_length_app (base rest : string) :
  slice_from (String.length base) (base +:+ rest) = rest.
Proof. induction base as [|c base IH]; simpl; done. Qed.

Lemma slice_from_past_end (n : nat) (s : string) :
  String.length s ≤ n → slice_from n s = "".
Proof.
  revert s. induction n as [|n IH]; intros [|c s]; simpl; intros Hlen.
  - done.
  - lia.
  - done.
  - apply IH. lia.
Qed.

Lemma lstrip_slash_id (s : string) :
  ¬ begins_with_sep s → lstrip "/" s = s.
Proof.
  destruct s as [|c s]; [done|]. intros Hsep. cbn [lstrip].
  destruct (char_in c "/") eqn:E; [|done].
  apply char_in_slash in E. subst c. exfalso. apply Hsep. by exists s.
Qed.

(** X1. Joining and making relative again: for a base directory [base]
    and a relative path [rel] that does not begin with a separator, the
    path [base/rel] made relative to a base of the length of [base] is
    [rel]. *)
Theorem get_relative_path_of_joined (base rel : string) :
  ¬ begins_with_sep rel →
  get_relative_path (PyUnicode (base +:+ "/" +:+ rel))
    (String.length base) true
  = rel.
Proof.
  intros Hrel. unfold get_relative_path. cbn [fsdecode].
  rewrite slice_from_length_app.
  change (lstrip "/" ("/" +:+ rel)) with (lstrip "/" rel).
  by apply lstrip_slash_id.
Qed.

(** X2. A base at least as long as the path: for a directory base, a
    path that is not longer than [len_base_path] has the empty relative
    path; nothing fails. *)
Theorem get_relative_path_past_end (path : pystr) (len_base_path : nat) :
  String.length (fsdecode path) ≤ len_base_path →
  get_relative_path path len_base_path true = "".
Proof.
  intros Hlen. unfold get_relative_path.
  by rewrite slice_from_past_end.
Qed.

(** *** When the live renderer shows nothing *)

(** X3. The live line is empty in exactly three cases: [quiet] is set,
    there is no event, or the mode is verbose and the event is terminal.
    In every other case the line begins with ["Extracting: "], also for an
    empty source. *)
Theorem extract_event_empty_iff
    (quiet verbose : bool) (len_base_path : nat) (base_is_dir : bool)
    (it : option ExtractEvent) :
  (extract_event quiet verbose len_base_path base_is_dir it = ""
   ↔ quiet = true ∨ it = None
     ∨ (verbose = true ∧ ∃ item, it = Some item ∧ done item = true))
  ∧ (extract_event quiet verbose len_base_path base_is_dir it = ""
     ∨ ∃ line,
         extract_event quiet verbose len_base_path base_is_dir it
         = "Extracting: " +:+ line).
Proof.
  unfold extract_event. split.
  - destruct quiet; [naive_solver|].
    destruct it as [item|]; [|naive_solver].
    destruct verbose; [destruct (done item) eqn:Hd|]; simpl.
    + naive_solver.
    + split; [discriminate|]. intros [?|[?|[_ (? & ? & ?)]]]; congruence.
    + split; [discriminate|]. intros [?|[?|[? _]]]; congruence.
  - destruct quiet; [by left|]. destruct it as [item|]; [|by left].
    destruct verbose; [destruct (done item)|]; eauto.
Qed.

(** *** The size of the summary *)

Lemma length_event_lines (n : nat) (d : bool) (xev : ExtractEvent) :
  length (event_lines n d xev) = message_count xev.
Proof.
  unfold event_lines, message_count.
  by rewrite length_app, !length_map.
Qed.

Lemma summary_length (n : nat) (d : bool) (failures : list ExtractEvent) :
  length (display_extract_summary n d failures)
  = S (sum_list (map message_count failures)).
Proof.
  unfold display_extract_summary. rewrite summary_loop_eq.
  cbn [echoed]. rewrite length_app, Nat.add_comm. cbn [length Nat.add].
  f_equal. induction failures as [|xev l IH]; [done|].
  cbn [map concat sum_list sum_list_with].
  by rewrite length_app, length_event_lines, IH.
Qed.

(** X4. The summary has one line for every error and every warning of
    the listed events, and one status line: no message is dropped or
    merged. *)
Theorem display_extract_summary_length
    (len_base_path : nat) (base_is_dir : bool) (failures : list ExtractEvent) :
  length (display_extract_summary len_base_path base_is_dir failures)
  = S (sum_list (map message_count failures)).
Proof. apply summary_length. Qed.

(** *** The failures list grows at its end, in stream order *)

Lemma observe_prefix (st : AggState) (x : ExtractEvent) :
  extract_result_with_errors st
  `prefix_of` extract_result_with_errors (observe st x).
Proof.
  unfold observe. destruct (is_failure x); [|done].
  case_decide; simpl; [|done]. by apply prefix_app_r.
Qed.

Lemma foldl_observe_prefix (evs : list ExtractEvent) (st : AggState) :
  extract_result_with_errors st
  `prefix_of` extract_result_with_errors (foldl observe st evs).
Proof.
  revert st. induction evs as [|x evs IH]; intros st; simpl; [done|].
  etrans; [apply observe_prefix | apply IH].
Qed.

Lemma foldl_observe_sublist
    (evs : list ExtractEvent) (st : AggState) (arrived : list ExtractEvent) :
  extract_result_with_errors st `sublist_of` arrived →
  extract_result_with_errors (foldl observe st evs)
  `sublist_of` arrived ++ filter (λ xev, is_failure xev = true) evs.
Proof.
  revert st arrived. induction evs as [|x evs IH]; intros st arrived Hsub.
  - simpl. by rewrite filter_nil, app_nil_r.
  - change (x :: evs) with ([x] ++ evs).
    rewrite filter_app, app_assoc, foldl_app. apply IH. simpl.
    rewrite filter_cons, filter_nil. unfold observe.
    destruct (is_failure x) eqn:Hx.
    + destruct (decide (true = true)) as [_|]; [|done].
      case_decide; simpl.
      * by apply sublist_app.
      * by apply sublist_inserts_r.
    + destruct (decide (false = true)) as [|_]; [done|].
      by rewrite app_nil_r.
Qed.

(** X5. The failures list is append-only and follows the stream: the list
    after a prefix of the stream is a prefix of the list at the end, and
    the final list is a subsequence of the terminal events with errors or
    warnings, in stream order.  This needs nothing of [repr]. *)
Theorem failures_append_only
    (verbose : bool) (len_base_path : nat) (base_is_dir : bool)
    (arrived later : list ExtractEvent) :
  extract_result_with_errors
    (final_state (extractcode false verbose len_base_path base_is_dir arrived))
  `prefix_of`
  extract_result_with_errors
    (final_state
       (extractcode false verbose len_base_path base_is_dir (arrived ++ later)))
  ∧ extract_result_with_errors
      (final_state
         (extractcode false verbose len_base_path base_is_dir arrived))
    `sublist_of` filter (λ xev, is_failure xev = true) arrived.
Proof.
  unfold extractcode. simpl. split.
  - rewrite foldl_app. apply foldl_observe_prefix.
  - apply (foldl_observe_sublist arrived initial_state []). done.
Qed.

(** *** The set of signatures *)

Lemma signatures_invariant_step (st : AggState) (x : ExtractEvent) :
  signatures_invariant st → signatures_invariant (observe st x).
Proof.
  intros [Hset Hnd]. unfold observe. destruct (is_failure x); [|done].
  case_decide as Hnew; [|done].
  unfold signatures_invariant. simpl. rewrite fmap_app. simpl. split.
  - rewrite list_to_set_app_L, <- Hset. apply set_eq. intros sig.
    rewrite !elem_of_union, elem_of_list_to_set, elem_of_singleton,
      list_elem_of_singleton.
    tauto.
  - apply NoDup_app. split; [done|]. split; [|apply NoDup_singleton].
    intros sig Hin Hsig. apply list_elem_of_singleton in Hsig as ->.
    apply Hnew. rewrite Hset. by apply elem_of_list_to_set.
Qed.

Lemma signatures_invariant_run (evs : list ExtractEvent) (st : AggState) :
  signatures_invariant st → signatures_invariant (foldl observe st evs).
Proof.
  revert st. induction evs as [|x evs IH]; intros st Hst; simpl; [done|].
  by apply IH, signatures_invariant_step.
Qed.

Lemma signatures_invariant_initial : signatures_invariant initial_state.
Proof. split; [done | apply NoDup_nil_2]. Qed.

(** X6. Whatever [repr] is, at the end of a run that is not quiet the set
    of signatures is exactly the set of the [repr] of the listed events,
    and no two listed events have the same [repr]. *)
Theorem signatures_track_failures
    (verbose : bool) (len_base_path : nat) (base_is_dir : bool)
    (extractibles : list ExtractEvent) :
  let st :=
    final_state
      (extractcode false verbose len_base_path base_is_dir extractibles) in
  unique_extract_events_with_errors st
  = list_to_set (repr <$> extract_result_with_errors st)
  ∧ NoDup (repr <$> extract_result_with_errors st).
Proof.
  apply (signatures_invariant_run extractibles initial_state).
  apply signatures_invariant_initial.
Qed.

(** *** A run without failures *)

Lemma failures_nil_iff (evs : list ExtractEvent) (st : AggState) :
  signatures_invariant st →
  extract_result_with_errors (foldl observe st evs) = []
  ↔ extract_result_with_errors st = []
    ∧ Forall (λ xev, is_failure xev = false) evs.
Proof.
  revert st. induction evs as [|x evs IH]; intros st Hst; simpl.
  - split; [by intros ?|by intros [? _]].
  - rewrite IH by (by apply signatures_invariant_step).
    rewrite Forall_cons. unfold observe.
    destruct (is_failure x) eqn:Hx; [|tauto].
    case_decide as Hnew; simpl.
    + split; [|intros [_ [? _]]; done].
      intros [Happ _]. by apply app_nil in Happ as [_ ?].
    + split; [|intros [_ [? _]]; done].
      intros [Hnil _]. exfalso.
      destruct Hst as [Hset _]. rewrite Hset, Hnil in Hnew.
      by apply elem_of_empty in Hnew.
Qed.

Lemma failures_have_messages (l : list ExtractEvent) :
  Forall (λ xev, is_failure xev = true) l →
  sum_list (map message_count l) = 0 → l = [].
Proof.
  destruct l as [|xev l]; [done|]. intros Hall Hsum.
  apply Forall_cons in Hall as [Hx _]. exfalso.
  unfold is_failure in Hx. cbn [map sum_list sum_list_with] in Hsum.
  unfold message_count in Hsum.
  destruct (done xev), (warnings xev), (errors xev); simpl in *; try done; lia.
Qed.

(** X7. A run that is not quiet echoes exactly two green lines,
    ["Extracting archives..."] and ["Extracting done."], if and only if no
    terminal event of the stream carries an error or a warning. *)
Theorem clean_run_output
    (verbose : bool) (len_base_path : nat) (base_is_dir : bool)
    (extractibles : list ExtractEvent) :
  stderr (extractcode false verbose len_base_path base_is_dir extractibles)
  = [mkEcho "Extracting archives..." green; mkEcho "Extracting done." green]
  ↔ Forall (λ xev, is_failure xev = false) extractibles.
Proof.
  unfold extractcode. simpl.
  pose proof (failures_nil_iff extractibles initial_state
                signatures_invariant_initial) as Hnil.
  split.
  - intros Hout. apply Hnil.
    apply failures_have_messages.
    + by apply observe_failures_are_failures.
    + apply (f_equal length) in Hout. simpl in Hout.
      rewrite summary_length in Hout. lia.
  - intros Hall. destruct Hnil as [_ Hnil].
    rewrite Hnil by done. reflexivity.
Qed.

(** *** Events that are emitted again *)

Lemma py_or_settled_self (f : pyflag) (errs : list string) :
  py_or (py_or f errs) errs = py_or f errs.
Proof.
  unfold py_or. destruct (flag_truthy f) eqn:Hf.
  - by rewrite Hf.
  - simpl. by destruct (list_truthy errs).
Qed.

Lemma py_or_settled_keep (f : pyflag) (errs other : list string) :
  py_or f errs = f → py_or (py_or f other) errs = py_or f other.
Proof.
  unfold py_or. destruct (flag_truthy f) eqn:Hf.
  - by rewrite Hf.
  - intros <-. simpl in *. destruct errs; [|done].
    simpl. by destruct other.
Qed.

Lemma observe_absorbs (st : AggState) (x : ExtractEvent) :
  absorbed (observe st x) x.
Proof.
  intros Hx. unfold observe. rewrite Hx. case_decide as Hnew; simpl.
  - split; [|apply py_or_settled_self].
    apply elem_of_union. left. by apply elem_of_singleton.
  - split; [done | apply py_or_settled_self].
Qed.

Lemma observe_keeps_absorbed (st : AggState) (x e : ExtractEvent) :
  absorbed st e → absorbed (observe st x) e.
Proof.
  intros Habs He. destruct (Habs He) as [Hin Hflag].
  unfold observe. destruct (is_failure x); [|done].
  case_decide; simpl.
  - split; [|by apply py_or_settled_keep].
    apply elem_of_union. by right.
  - split; [done | by apply py_or_settled_keep].
Qed.

Lemma absorbed_run (evs : list ExtractEvent) (st : AggState) (e : ExtractEvent) :
  e ∈ evs ∨ absorbed st e → absorbed (foldl observe st evs) e.
Proof.
  revert st. induction evs as [|x evs IH]; intros st Hcase; simpl.
  - destruct Hcase as [Hin | ?]; [|done]. by apply elem_of_nil in Hin.
  - apply IH. destruct Hcase as [Hin | Habs].
    + apply elem_of_cons in Hin as [-> | Hin]; [|by left].
      right. apply observe_absorbs.
    + right. by apply observe_keeps_absorbed.
Qed.

Lemma observe_absorbed_id (st : AggState) (x : ExtractEvent) :
  absorbed st x → observe st x = st.
Proof.
  intros Habs. unfold observe. destruct (is_failure x) eqn:Hx; [|done].
  destruct (Habs Hx) as [Hin Hflag]. rewrite decide_False by (by intros ?).
  rewrite Hflag. by destruct st.
Qed.

Lemma foldl_observe_absorbed_id (extra : list ExtractEvent) (st : AggState) :
  (∀ e, e ∈ extra → absorbed st e) → foldl observe st extra = st.
Proof.
  induction extra as [|x extra IH]; intros Hall; simpl; [done|].
  rewrite observe_absorbed_id by (apply Hall; by left).
  apply IH. intros e He. apply Hall. by right.
Qed.

(** The quiet loop computes the flag of the other loop and nothing else. *)
Lemma foldl_observe_quiet_flag (evs : list ExtractEvent) (st st' : AggState) :
  has_extract_errors st = has_extract_errors st' →
  has_extract_errors (foldl observe_quiet st evs)
  = has_extract_errors (foldl observe st' evs).
Proof.
  revert st st'. induction evs as [|x evs IH]; intros st st' Hflag; simpl.
  - done.
  - apply IH. unfold observe_quiet, observe.
    destruct (is_failure x); [|done].
    case_decide; simpl; by rewrite Hflag.
Qed.

Lemma quiet_final_state (evs : list ExtractEvent) :
  foldl observe_quiet initial_state evs
  = mkAgg [] ∅ (has_extract_errors (foldl observe initial_state evs)).
Proof.
  destruct (observe_quiet_failures evs initial_state) as [Hl Hs].
  rewrite <- (foldl_observe_quiet_flag evs initial_state initial_state) by done.
  destruct (foldl observe_quiet initial_state evs). simpl in *. by subst.
Qed.

Lemma reemitted_not_quiet (evs extra : list ExtractEvent) :
  (∀ e, e ∈ extra → e ∈ evs) →
  foldl observe initial_state (evs ++ extra) = foldl observe initial_state evs.
Proof.
  intros Hsub. rewrite foldl_app. apply foldl_observe_absorbed_id.
  intros e He. apply absorbed_run. left. by apply Hsub.
Qed.

(** X8. Events that are emitted again change nothing: when every event
    of [again] has already arrived in [extractibles], the run over
    [extractibles ++ again] ends in the same state (list, set and flag),
    echoes the same lines and has the same exit status as the run over
    [extractibles], in both modes and whatever [repr] is. *)
Theorem reemitted_events_change_nothing
    (quiet verbose : bool) (len_base_path : nat) (base_is_dir : bool)
    (extractibles again : list ExtractEvent) :
  (∀ xev, xev ∈ again → xev ∈ extractibles) →
  let r := extractcode quiet verbose len_base_path base_is_dir extractibles in
  let r' :=
    extractcode quiet verbose len_base_path base_is_dir
      (extractibles ++ again) in
  final_state r' = final_state r ∧ stderr r' = stderr r ∧ rc r' = rc r.
Proof.
  intros Hsub. simpl. unfold extractcode. destruct quiet; simpl.
  - rewrite !quiet_final_state, reemitted_not_quiet by done. done.
  - rewrite reemitted_not_quiet by done. done.
Qed.

(** *** The exit status does not depend on order or on warnings *)

Lemma existsb_Permutation {A : Type} (f : A → bool) (l l' : list A) :
  l ≡ₚ l' → existsb f l = existsb f l'.
Proof.
  induction 1 as [|x l l' _ IH|x y l|l l' l'' _ IH1 _ IH2]; simpl.
  - done.
  - by rewrite IH.
  - by destruct (f x), (f y).
  - by rewrite IH1.
Qed.

(** X9. The exit status depends on the events of the stream, not on their
    order: two streams that are permutations of each other give the same
    exit status, in both modes. *)
Theorem exit_status_order_independent
    (quiet verbose : bool) (len_base_path : nat) (base_is_dir : bool)
    (extractibles reordered : list ExtractEvent) :
  extractibles ≡ₚ reordered →
  rc (extractcode quiet verbose len_base_path base_is_dir extractibles)
  = rc (extractcode quiet verbose len_base_path base_is_dir reordered).
Proof.
  intros Hperm. rewrite !extractcode_rc. unfold exit_status.
  by rewrite !extractcode_flag, (existsb_Permutation _ _ _ Hperm).
Qed.

Lemma existsb_set_warnings
    (other : ExtractEvent → list string) (l : list ExtractEvent) :
  existsb error_bearing (map (λ xev, set_warnings (other xev) xev) l)
  = existsb error_bearing l.
Proof. induction l as [|xev l IH]; simpl; [done|]. by rewrite IH. Qed.

(** X10. Warnings never change the exit status: replacing the warnings of
    every event of the stream by any other lists gives the same exit
    status, in both modes. *)
Theorem exit_status_ignores_warnings
    (quiet verbose : bool) (len_base_path : nat) (base_is_dir : bool)
    (other : ExtractEvent → list string) (extractibles : list ExtractEvent) :
  rc (extractcode quiet verbose len_base_path base_is_dir
        (map (λ xev, set_warnings (other xev) xev) extractibles))
  = rc (extractcode quiet verbose len_base_path base_is_dir extractibles).
Proof.
  rewrite !extractcode_rc. unfold exit_status. rewrite !extractcode_flag.
  by rewrite existsb_set_warnings.
Qed.

(** *** The colour of the status line and the exit status *)

Lemma existsb_errors_listed (evs failures : list ExtractEvent) :
  (∀ xev, xev ∈ failures ↔ xev ∈ evs ∧ is_failure xev = true) →
  existsb (λ xev, list_truthy (errors xev)) failures
  = existsb error_bearing evs.
Proof.
  intros Hmem. apply eq_true_iff_eq. rewrite !existsb_exists. split.
  - intros (e & Hin & He). apply list_elem_of_In, Hmem in Hin as [Hin Hf].
    exists e. split; [by apply list_elem_of_In|].
    by rewrite <- is_failure_errors, Hf, He.
  - intros (e & Hin & He). rewrite <- is_failure_errors in He.
    apply andb_true_iff in He as [Hf He].
    exists e. split; [|done]. apply list_elem_of_In, Hmem.
    split; [by apply list_elem_of_In | done].
Qed.

(** X11. When [repr] tells the events of the stream apart, a run that is
    not quiet ends its output with a red ["Extracting done."] exactly when
    its exit status is 1. *)
Theorem red_status_iff_exit_1
    (verbose : bool) (len_base_path : nat) (base_is_dir : bool)
    (extractibles : list ExtractEvent) :
  (∀ a b, a ∈ extractibles → b ∈ extractibles → repr a = repr b → a = b) →
  let r := extractcode false verbose len_base_path base_is_dir extractibles in
  last (stderr r) = Some (mkEcho "Extracting done." red) ↔ rc r = 1%Z.
Proof.
  intros Hinj. cbv zeta.
  destruct (dedup_invariant_run extractibles Hinj) as (_ & _ & Hmem & _).
  rewrite extractcode_rc. unfold exit_status. rewrite extractcode_flag.
  unfold extractcode. simpl. unfold display_extract_summary.
  rewrite app_comm_cons, last_snoc, summary_loop_eq.
  unfold summary_color. simpl.
  rewrite (existsb_errors_listed extractibles _ Hmem).
  destruct (existsb error_bearing extractibles).
  - done.
  - split; [|done]. intros Heq. exfalso. injection Heq as Hc.
    by destruct (existsb _ _).
Qed.

(** *** The notice texts *)

Lemma string_app_cons (c : ascii) (a b : string) :
  String c a +:+ b = String c (a +:+ b).
Proof. reflexivity. Qed.

Lemma string_app_nil_l (b : string) : "" +:+ b = b.
Proof. reflexivity. Qed.

Ltac string_app_in H := rewrite ?string_app_nil_l, ?string_app_cons in H.

Lemma string_app_assoc (a b c : string) :
  (a +:+ b) +:+ c = a +:+ b +:+ c.
Proof.
  induction a as [|x a IH]; [done|].
  by rewrite !string_app_cons, IH.
Qed.

Lemma string_app_same_length (a a' x x' : string) :
  a +:+ x = a' +:+ x' → String.length a = String.length a' →
  a = a' ∧ x = x'.
Proof.
  revert a'. induction a as [|c a IH]; intros [|c' a'] Heq Hlen;
    simpl in Hlen; try done.
  string_app_in Heq. injection Heq as -> Heq.
  destruct (IH a' Heq) as [-> ->]; [lia|done].
Qed.

Lemma prefix_app (p s : string) :
  String.prefix p s = true ↔ ∃ rest, s = p +:+ rest.
Proof.
  revert s. induction p as [|c p IH]; intros [|d s]; simpl.
  - split; [|done]. intros _. by exists "".
  - split; [|done]. intros _. by exists (String d s).
  - split; [done|]. intros [rest Hrest]. by string_app_in Hrest.
  - destruct (ascii_dec c d) as [->|Hne].
    + rewrite IH. split; intros [rest Hrest]; exists rest.
      * by rewrite string_app_cons, <- Hrest.
      * string_app_in Hrest. congruence.
    + split; [done|]. intros [rest Hrest]. string_app_in Hrest.
      congruence.
Qed.

Lemma find_sep_unfold (sep s : string) :
  find_sep sep s
  = if String.prefix sep s then Some ("", slice_from (String.length sep) s)
    else
      match s with
      | EmptyString => None
      | String c s' =>
          match find_sep sep s' with
          | Some (before, after) => Some (String c before, after)
          | None => None
          end
      end.
Proof. by destruct s. Qed.

Lemma find_sep_here (sep s : string) :
  String.prefix sep s = true →
  s = "" +:+ sep +:+ slice_from (String.length sep) s.
Proof.
  intros Hpre. apply prefix_app in Hpre as [rest ->].
  by rewrite slice_from_length_app.
Qed.

Lemma find_sep_Some (sep s before after : string) :
  find_sep sep s = Some (before, after) →
  s = before +:+ sep +:+ after
  ∧ ∀ p q, s = p +:+ sep +:+ q → String.length before ≤ String.length p.
Proof.
  revert before after. induction s as [|c s IH]; intros before after;
    rewrite find_sep_unfold; destruct (String.prefix sep _) eqn:Hpre.
  - intros [= <- <-]. split; [by apply find_sep_here|]. simpl. lia.
  - done.
  - intros [= <- <-]. split; [by apply find_sep_here|]. simpl. lia.
  - destruct (find_sep sep s) as [[b a]|] eqn:Hrec; [|done].
    intros [= <- <-]. destruct (IH b a eq_refl) as [-> Hmin].
    split; [by rewrite string_app_cons|]. intros [|c' p] q Heq.
    + exfalso. string_app_in Heq.
      assert (String.prefix sep (String c (b +:+ sep +:+ a)) = true) as Hp
        by (apply prefix_app; by exists q).
      congruence.
    + string_app_in Heq. injection Heq as _ Heq. simpl.
      specialize (Hmin p q Heq). lia.
Qed.

Lemma find_sep_None (sep s : string) :
  find_sep sep s = None ↔ ¬ occurs sep s.
Proof.
  split.
  - induction s as [|c s IH]; rewrite find_sep_unfold;
      destruct (String.prefix sep _) eqn:Hpre; try done.
    + intros _ ([|c' p] & q & Heq); string_app_in Heq; [|done].
      assert (String.prefix sep "" = true) as Hp
        by (apply prefix_app; by exists q).
      congruence.
    + destruct (find_sep sep s) as [[b a]|]; [done|]. intros _.
      intros ([|c' p] & q & Heq); string_app_in Heq.
      * assert (String.prefix sep (String c s) = true) as Hp
          by (apply prefix_app; by exists q).
        congruence.
      * injection Heq as _ Heq. apply IH; [done|]. by exists p, q.
  - intros Hno. destruct (find_sep sep s) as [[b a]|] eqn:Hfind; [|done].
    exfalso. apply Hno. exists b, a. by apply find_sep_Some.
Qed.

Lemma split_notice_Some (strip : string → string) (contents : string)
    (texts : NoticeTexts) :
  split_notice strip contents = Some texts →
  ∃ head extra text ack,
    find_sep (nl +:+ nl +:+ nl) contents = Some (head, extra)
    ∧ find_sep (nl +:+ nl +:+ "  ") head = Some (text, ack)
    ∧ texts
      = mkNoticeTexts text ((nl +:+ nl +:+ "  ") +:+ ack)
          ((nl +:+ nl +:+ nl) +:+ extra)
          (replace_two_spaces (strip ((nl +:+ nl +:+ "  ") +:+ ack))).
Proof.
  unfold split_notice, py_split1.
  destruct (find_sep (nl +:+ nl +:+ nl) contents) as [[head extra]|];
    [|done].
  destruct (find_sep (nl +:+ nl +:+ "  ") head) as [[text ack]|] eqn:Hsecond;
    [|done].
  intros [= <-]. by exists head, extra, text, ack.
Qed.

(** X12. The round trip of the notice: when the module loads, [--about]
    (with the flag given and no resilient parsing) echoes [info_text]
    followed by the contents of the [NOTICE] file, unchanged, and exits;
    the three pieces cut out of the file, put together, are the file. *)
Theorem print_about_echoes_notice_file
    (strip : string → string) (contents : string) (texts : NoticeTexts) :
  split_notice strip contents = Some texts →
  notice_text texts +:+ acknowledgment_text texts +:+ extra_notice_text texts
  = contents
  ∧ print_about texts false true = EchoesAndExits (info_text +:+ contents).
Proof.
  intros Hload.
  apply split_notice_Some in Hload
    as (head & extra & text & ack & Hfirst & Hsecond & ->).
  apply find_sep_Some in Hfirst as [-> _].
  apply find_sep_Some in Hsecond as [-> _].
  assert (text +:+ ((nl +:+ nl +:+ "  ") +:+ ack)
          +:+ ((nl +:+ nl +:+ nl) +:+ extra)
          = (text +:+ (nl +:+ nl +:+ "  ") +:+ ack)
            +:+ (nl +:+ nl +:+ nl) +:+ extra) as Hcat.
  { by rewrite !string_app_assoc. }
  split; [exact Hcat|].
  unfold print_about. cbn [negb orb notice_text acknowledgment_text
                             extra_notice_text].
  by rewrite Hcat.
Qed.

(** X13. When loading the module fails: the cutting succeeds exactly when
    the blank-line delimiter of three newlines occurs in the file and the
    delimiter of two newlines and two spaces occurs before its first
    occurrence; otherwise the unpacking raises. *)
Theorem split_notice_succeeds_iff
    (strip : string → string) (contents : string) :
  is_Some (split_notice strip contents)
  ↔ ∃ head extra,
      contents = head +:+ (nl +:+ nl +:+ nl) +:+ extra
      ∧ (∀ p q, contents = p +:+ (nl +:+ nl +:+ nl) +:+ q →
                String.length head ≤ String.length p)
      ∧ occurs (nl +:+ nl +:+ "  ") head.
Proof.
  split.
  - intros [texts Hload].
    apply split_notice_Some in Hload
      as (head & extra & text & ack & Hfirst & Hsecond & _).
    exists head, extra. apply find_sep_Some in Hfirst as [Heq Hmin].
    split; [done|]. split; [done|].
    exists text, ack. by apply find_sep_Some in Hsecond as [? _].
  - intros (head & extra & Heq & Hmin & Hocc).
    destruct (find_sep (nl +:+ nl +:+ nl) contents) as [[head' extra']|]
      eqn:Hfirst.
    + pose proof (find_sep_Some _ _ _ _ Hfirst) as [Heq' Hmin'].
      assert (head' = head) as ->.
      { apply (string_app_same_length head' head
                 ((nl +:+ nl +:+ nl) +:+ extra')
                 ((nl +:+ nl +:+ nl) +:+ extra)).
        - by rewrite <- Heq', <- Heq.
        - apply Nat.le_antisymm; [by eapply Hmin' | by eapply Hmin]. }
      destruct (find_sep (nl +:+ nl +:+ "  ") head) as [[text ack]|]
        eqn:Hsecond.
      * unfold split_notice, py_split1. rewrite Hfirst, Hsecond. by eexists.
      * exfalso. by apply find_sep_None in Hsecond.
    + exfalso. apply find_sep_None in Hfirst. apply Hfirst.
      by exists head, extra.
Qed.

Lemma occurs_two_spaces_cons (c : ascii) (s : string) :
  occurs "  " (String c s) →
  (c = " "%char ∧ ∃ rest, s = String " " rest) ∨ occurs "  " s.
Proof.
  intros ([|c' p] & q & Heq); string_app_in Heq.
  - injection Heq as -> ->. left. split; [done|]. by exists q.
  - injection Heq as _ ->. right. by exists p, q.
Qed.

Lemma replace_two_spaces_head (d : ascii) (r : string) :
  d ≠ " "%char → ∃ rest, replace_two_spaces (String d r) = String d rest.
Proof.
  intros Hd. destruct r as [|e r]; simpl; [by eexists|].
  apply Ascii.eqb_neq in Hd. rewrite Hd. simpl. by eexists.
Qed.

Lemma replace_two_spaces_pair (c d : ascii) (r : string) :
  replace_two_spaces (String c (String d r))
  = if Ascii.eqb c " " && Ascii.eqb d " " then replace_two_spaces r
    else String c (replace_two_spaces (String d r)).
Proof. reflexivity. Qed.

Lemma replace_two_spaces_clean (s : string) :
  ¬ occurs "  " (replace_two_spaces s)
  ∧ ∀ c, ¬ occurs "  " (replace_two_spaces (String c s)).
Proof.
  induction s as [|d r [IH1 IH2]].
  - split.
    + intros ([|c p] & q & Heq); string_app_in Heq; done.
    + intros c Hocc. simpl in Hocc.
      apply occurs_two_spaces_cons in Hocc as [[_ [rest Hrest]] | Hocc];
        [done|].
      destruct Hocc as ([|c' p] & q & Heq); string_app_in Heq; done.
  - split; [apply IH2|]. intros c. rewrite replace_two_spaces_pair.
    destruct (Ascii.eqb c " " && Ascii.eqb d " ") eqn:Hpair; [done|].
    intros Hocc.
    apply occurs_two_spaces_cons in Hocc as [[-> [rest Hrest]] | Hocc].
    + simpl in Hpair. apply Ascii.eqb_neq in Hpair.
      destruct (replace_two_spaces_head d r Hpair) as [rest' Hhead].
      rewrite Hhead in Hrest. congruence.
    + by apply (IH2 d).
Qed.

(** X14. The [notice] text has no two spaces in a row: once the pairs of
    spaces are removed from left to right, none is left, whatever the
    file holds. *)
Theorem notice_has_no_double_space
    (strip : string → string) (contents : string) (texts : NoticeTexts) :
  split_notice strip contents = Some texts →
  ¬ occurs "  " (notice texts).
Proof.
  intros Hload.
  apply split_notice_Some in Hload as (? & ? & ? & ack & _ & _ & ->).
  apply replace_two_spaces_clean.
Qed.

End ExtractCode.

(** ** The model at work on the sample events *)

Example sample_failures :
  extract_result_with_errors
    (final_state (extractcode (rt := posix_runtime) false false 4 true
                    sample_stream))
  = [ev_error; ev_warning; ev_error_odd].
Proof. vm_compute. reflexivity. Qed.

Example sample_exit_status :
  rc (extractcode (rt := posix_runtime) false true 4 true sample_stream) = 1%Z
  ∧ rc (extractcode (rt := posix_runtime) true true 4 true sample_stream) = 1%Z
  ∧ rc (extractcode (rt := posix_runtime) false true 4 true
          [ev_progress; ev_warning]) = 0%Z.
Proof. vm_compute. repeat split. Qed.

Example sample_live_lines :
  extract_event (rt := posix_runtime) false true 4 true (Some ev_progress)
  = "Extracting: c/d.zip"
  ∧ extract_event (rt := posix_runtime) false false 4 true (Some ev_progress)
    = "Extracting: d.zip"
  ∧ extract_event (rt := posix_runtime) false true 12 false (Some ev_progress)
    = "Extracting: d.zip"
  ∧ extract_event (rt := posix_runtime) false false 12 false (Some ev_error)
    = "Extracting: d.zip".
Proof. vm_compute. repeat split. Qed.

(** C1. The summary does not make every source relative: at the base
    [/a/b] (a directory, of length 4), the terminal event with the text
    source [/a/b/c/d.zip] and the error [boom] is reported under its
    absolute path, while [get_relative_path] gives [c/d.zip] for that
    source and the same event with a byte source is reported as
    [c/d.zip]. *)
Theorem summary_text_source_not_relative :
  display_extract_summary (rt := posix_runtime) 4 true [ev_error]
  = [mkEcho "ERROR extracting: /a/b/c/d.zip: boom" red;
     mkEcho "Extracting done." red]
  ∧ get_relative_path (rt := posix_runtime) (source ev_error) 4 true
    = "c/d.zip"
  ∧ display_extract_summary (rt := posix_runtime) 4 true [ev_error_bytes]
    = [mkEcho "ERROR extracting: c/d.zip: boom" red;
       mkEcho "Extracting done." red].
Proof. vm_compute. repeat split. Qed.

Lemma sample_stream_repr_inj (a b : ExtractEvent) :
  a ∈ sample_stream → b ∈ sample_stream →
  repr (Collaborators := posix_runtime) a
  = repr (Collaborators := posix_runtime) b →
  a = b.
Proof.
  unfold sample_stream. intros Ha Hb.
  repeat (apply elem_of_cons in Ha as [-> | Ha]);
    try (by apply elem_of_nil in Ha).
  all: repeat (apply elem_of_cons in Hb as [-> | Hb]);
    try (by apply elem_of_nil in Hb).
  all: intros Heq; first [reflexivity | vm_compute in Heq; discriminate Heq].
Defined.

Lemma failures_dedup_first_arrival_witness :
  let r := extractcode (rt := posix_runtime) false true 4 true sample_stream in
  let failures := extract_result_with_errors (final_state r) in
  (∀ a b, a ∈ sample_stream → b ∈ sample_stream →
          repr (Collaborators := posix_runtime) a
          = repr (Collaborators := posix_runtime) b → a = b)
  ∧ NoDup failures
  ∧ (∀ xev, xev ∈ failures ↔ xev ∈ sample_stream ∧ is_failure xev = true)
  ∧ (∀ (i j : nat) a b,
       i < j → failures !! i = Some a → failures !! j = Some b →
       ∃ k : nat, sample_stream !! k = Some a
                  ∧ ∀ k' : nat, k' ≤ k → sample_stream !! k' ≠ Some b)
  ∧ stderr r
    = mkEcho "Extracting archives..." green
      :: display_extract_summary (rt := posix_runtime) 4 true failures.
Proof.
  split; [exact sample_stream_repr_inj|].
  apply (failures_dedup_first_arrival (rt := posix_runtime)
           true 4 true sample_stream).
  exact sample_stream_repr_inj.
Defined.

Lemma non_terminal_event_ignored_witness :
  done ev_progress = false
  ∧ observe (rt := posix_runtime) initial_state ev_progress = initial_state
  ∧ observe_quiet initial_state ev_progress = initial_state
  ∧ final_state (extractcode (rt := posix_runtime) false true 4 true
                   ([ev_error] ++ ev_progress :: [ev_warning]))
    = final_state (extractcode (rt := posix_runtime) false true 4 true
                     ([ev_error] ++ [ev_warning]))
  ∧ ev_progress
    ∉ extract_result_with_errors
        (final_state (extractcode (rt := posix_runtime) false true 4 true
                        ([ev_error] ++ ev_progress :: [ev_warning]))).
Proof.
  split; [reflexivity|].
  apply (non_terminal_event_ignored (rt := posix_runtime)
           false true 4 true initial_state ev_progress
           [ev_error] [ev_warning]).
  reflexivity.
Defined.

Lemma had_errors_monotonic_witness :
  flag_truthy
    (has_extract_errors
       (final_state
          (extractcode (rt := posix_runtime) true false 4 true
             [ev_warning; ev_error]))) = true
  ∧ flag_truthy
      (has_extract_errors
         (final_state
            (extractcode (rt := posix_runtime) true false 4 true
               ([ev_warning; ev_error] ++ [ev_progress; ev_warning]))))
    = true.
Proof.
  split; [reflexivity|].
  apply (had_errors_monotonic (rt := posix_runtime)
           true false 4 true [ev_warning; ev_error] [ev_progress; ev_warning]).
  reflexivity.
Defined.

Lemma extract_event_spec_witness :
  file_name (Collaborators := posix_runtime) "" = ""
  ∧ (∀ verbose it,
       extract_event (rt := posix_runtime) true verbose 4 true it = "")
  ∧ (∀ quiet verbose,
       extract_event (rt := posix_runtime) quiet verbose 4 true None = "")
  ∧ (done ev_progress = true →
     extract_event (rt := posix_runtime) false true 4 true (Some ev_progress)
     = "")
  ∧ (done ev_progress = false →
     extract_event (rt := posix_runtime) false true 4 true (Some ev_progress)
     = "Extracting: "
       +:+ get_relative_path (rt := posix_runtime)
             (PyUnicode (as_text (rt := posix_runtime) (source ev_progress)))
             4 true)
  ∧ extract_event (rt := posix_runtime) false false 4 true (Some ev_progress)
    = "Extracting: "
      +:+ file_name (Collaborators := posix_runtime)
            (as_text (rt := posix_runtime) (source ev_progress)).
Proof.
  split; [reflexivity|].
  apply (extract_event_spec (rt := posix_runtime) 4 true ev_progress).
  reflexivity.
Defined.

(** ** The further properties at work on the samples *)

Example sample_notice_loads :
  split_notice id sample_notice = Some sample_notice_texts.
Proof. vm_compute. reflexivity. Qed.

Lemma get_relative_path_of_joined_witness :
  ¬ begins_with_sep "c/d.zip"
  ∧ get_relative_path (rt := posix_runtime)
      (PyUnicode ("/a/b" +:+ "/" +:+ "c/d.zip")) (String.length "/a/b") true
    = "c/d.zip".
Proof.
  assert (¬ begins_with_sep "c/d.zip") as Hrel by (by intros [rest ?]).
  split; [exact Hrel|].
  exact (get_relative_path_of_joined (rt := posix_runtime)
           "/a/b" "c/d.zip" Hrel).
Defined.

Lemma get_relative_path_past_end_witness :
  String.length (fsdecode (rt := posix_runtime) (PyUnicode "/a")) ≤ 4
  ∧ get_relative_path (rt := posix_runtime) (PyUnicode "/a") 4 true = "".
Proof.
  assert (String.length (fsdecode (rt := posix_runtime) (PyUnicode "/a")) ≤ 4)
    as Hlen by (simpl; lia).
  split; [exact Hlen|].
  exact (get_relative_path_past_end (rt := posix_runtime)
           (PyUnicode "/a") 4 Hlen).
Defined.

Lemma sample_again_arrived (xev : ExtractEvent) :
  xev ∈ [ev_error; ev_warning; ev_progress] → xev ∈ sample_stream.
Proof.
  unfold sample_stream. intros Hin.
  repeat (apply elem_of_cons in Hin as [-> | Hin]).
  - right. by left.
  - right. right. by left.
  - by left.
  - by apply elem_of_nil in Hin.
Defined.

Lemma reemitted_events_change_nothing_witness :
  let r := extractcode (rt := posix_runtime) false true 4 true sample_stream in
  let r' :=
    extractcode (rt := posix_runtime) false true 4 true
      (sample_stream ++ [ev_error; ev_warning; ev_progress]) in
  (∀ xev, xev ∈ [ev_error; ev_warning; ev_progress] → xev ∈ sample_stream)
  ∧ final_state r' = final_state r ∧ stderr r' = stderr r ∧ rc r' = rc r.
Proof.
  split; [exact sample_again_arrived|].
  exact (reemitted_events_change_nothing (rt := posix_runtime)
           false true 4 true sample_stream
           [ev_error; ev_warning; ev_progress] sample_again_arrived).
Defined.

Lemma exit_status_order_independent_witness :
  [ev_warning; ev_error] ≡ₚ [ev_error; ev_warning]
  ∧ rc (extractcode (rt := posix_runtime) true false 4 true
          [ev_warning; ev_error])
    = rc (extractcode (rt := posix_runtime) true false 4 true
            [ev_error; ev_warning]).
Proof.
  assert ([ev_warning; ev_error] ≡ₚ [ev_error; ev_warning]) as Hperm
    by apply perm_swap.
  split; [exact Hperm|].
  exact (exit_status_order_independent (rt := posix_runtime)
           true false 4 true _ _ Hperm).
Defined.

Lemma red_status_iff_exit_1_witness :
  let r := extractcode (rt := posix_runtime) false true 4 true sample_stream in
  (∀ a b, a ∈ sample_stream → b ∈ sample_stream →
          repr (Collaborators := posix_runtime) a
          = repr (Collaborators := posix_runtime) b → a = b)
  ∧ (last (stderr r) = Some (mkEcho "Extracting done." red) ↔ rc r = 1%Z).
Proof.
  split; [exact sample_stream_repr_inj|].
  exact (red_status_iff_exit_1 (rt := posix_runtime)
           true 4 true sample_stream sample_stream_repr_inj).
Defined.

Lemma print_about_echoes_notice_file_witness :
  split_notice id sample_notice = Some sample_notice_texts
  ∧ notice_text sample_notice_texts
    +:+ acknowledgment_text sample_notice_texts
    +:+ extra_notice_text sample_notice_texts
    = sample_notice
  ∧ print_about sample_notice_texts false true
    = EchoesAndExits (info_text +:+ sample_notice).
Proof.
  assert (split_notice id sample_notice = Some sample_notice_texts) as Hload
    by (vm_compute; reflexivity).
  split; [exact Hload|].
  exact (print_about_echoes_notice_file id sample_notice sample_notice_texts
           Hload).
Defined.

Lemma notice_has_no_double_space_witness :
  split_notice id sample_notice = Some sample_notice_texts
  ∧ ¬ occurs "  " (notice sample_notice_texts).
Proof.
  assert (split_notice id sample_notice = Some sample_notice_texts) as Hload
    by (vm_compute; reflexivity).
  split; [exact Hload|].
  exact (notice_has_no_double_space id sample_notice sample_notice_texts
           Hload).
Defined.
